(** * Game of life engine of [main.py]: a shallow embedding

    The module keeps the live cells of a generation as a Python [set] of
    integer pairs and computes the next generation with a dictionary
    ([defaultdict(int)]) that tallies, for every dead neighbour of a live
    cell, how many live cells touch it.  The embedding keeps that shape:

    - a Python [int] coordinate is a [Z], a [len] or a tally is a [nat];
    - [set] is stdpp's [gset], the tally dictionary is a [gmap];
    - a [for] loop over a set or over [dict.items()] is a left fold over
      the enumeration of the container ([elements], [map_to_list]);
    - [set.remove] raises [KeyError] on an absent element, so the update
      functions live in the [option] monad ([None] is the exception);
    - [random.random()] reads a stream of binary64 draws, threaded through
      a small state monad; the floats are the Standard Library's IEEE 754
      specification floats;
    - the loop of [main] is the sequence of grids it holds, one update per
      round; the window, the events and [draw_grid] are left out. *)

From Stdlib Require Import ZArith Lia.
From Stdlib Require Import Floats.SpecFloat.
From stdpp Require Import gmap list fin_maps fin_sets.

Local Open Scope Z_scope.

(** ** Data model ([grid_defs]: three named tuples) *)

Abbreviation Pos := (Z * Z)%type.

Record Dim := mkDim { width : Z; height : Z }.

Record Grid := mkGrid { dim : Dim; cells : gset Pos }.

Record Neighbours := mkNeighbours { alive : gset Pos; dead : gset Pos }.

(** ** Python primitives used by the module *)

(** [n in [a, b, ...]] on a list literal of counts. *)
Definition py_in (n : nat) (l : list nat) : bool := bool_decide (n ∈ l).

(** [s.remove(k)]: [KeyError] when [k] is not a member. *)
Definition set_remove (s : gset Pos) (k : Pos) : option (gset Pos) :=
  if decide (k ∈ s) then Some (s ∖ {[ k ]}) else None.

(** [s.add(k)]. *)
Definition set_add (s : gset Pos) (k : Pos) : gset Pos := s ∪ {[ k ]}.

(** [undead[pos] += 1] on a [defaultdict(int)]: a missing key reads 0. *)
Definition incr (undead : gmap Pos nat) (pos : Pos) : gmap Pos nat :=
  <[ pos := S (default 0%nat (undead !! pos)) ]> undead.

(** [for x in xs: body] where the body may raise: a left fold in [option]. *)
Fixpoint for_each {A S : Type} (body : S → A → option S) (s : S) (xs : list A)
  : option S :=
  match xs with
  | [] => Some s
  | x :: xs' => match body s x with
                | Some s' => for_each body s' xs'
                | None => None
                end
  end.

(** [range(n)]: empty when [n <= 0]. *)
Definition range (n : Z) : list Z := seqZ 0 n.

(** ** [get_neighbours] *)

Definition offsets : list (Z * Z) :=
  [(-1, -1); (0, -1); (1, -1); (-1, 0); (1, 0); (-1, 1); (0, 1); (1, 1)].

Definition possible_neighbours (x y : Z) : gset Pos :=
  list_to_set ((λ o : Z * Z, (x + o.1, y + o.2)) <$> offsets).

Definition get_neighbours (grid : Grid) (x y : Z) : Neighbours :=
  let possible := possible_neighbours x y in
  let alive : gset Pos :=
    set_map (λ pos : Pos, (pos.1, pos.2))
            (filter (λ pos, pos ∈ cells grid) possible) in
  mkNeighbours alive (possible ∖ alive).

#[global] Arguments get_neighbours : simpl never.

(** ** The update functions

    The four functions are the same two loops with different tests; the
    loops are written once, parameterised by the test that removes a live
    cell and the test that adds a tallied dead position. *)

(** [for pos in dead_neighbours: undead[pos] += 1]. *)
Definition tally_dead (undead : gmap Pos nat) (dead_neighbours : gset Pos)
  : gmap Pos nat :=
  foldl incr undead (elements dead_neighbours).

(** Body of the first loop, for the live cell [(x, y)]. *)
Definition survival_body (dies : nat → bool) (grid : Grid)
    (st : gset Pos * gmap Pos nat) (c : Pos) : option (gset Pos * gmap Pos nat) :=
  let '(new_cells, undead) := st in
  let '(x, y) := c in
  let nb := get_neighbours grid x y in
  match (if dies (size (alive nb)) then set_remove new_cells (x, y)
         else Some new_cells) with
  | Some new_cells' => Some (new_cells', tally_dead undead (dead nb))
  | None => None
  end.

(** Body of the second loop, for the item [(pos, count)] of [undead]. *)
Definition birth_body (born : nat → bool) (new_cells : gset Pos)
    (item : Pos * nat) : gset Pos :=
  let '(pos, count) := item in
  if born count then set_add new_cells (pos.1, pos.2) else new_cells.

Definition update_with (dies born : nat → bool) (grid : Grid) : option Grid :=
  let new_cells := cells grid in
  let undead : gmap Pos nat := ∅ in
  match for_each (survival_body dies grid) (new_cells, undead)
                 (elements (cells grid)) with
  | Some (new_cells, undead) =>
      Some (mkGrid (dim grid)
                   (foldl (birth_body born) new_cells (map_to_list undead)))
  | None => None
  end.

(** [if len(alive_neighbours) not in [2, 3]: remove]; births on a tally of 3
    ([filter(lambda elem: elem[1] == 3, undead.items())]). *)
Definition update_grid : Grid → option Grid :=
  update_with (λ n, negb (py_in n [2; 3]%nat)) (λ count, bool_decide (count = 3%nat)).

Definition update_grid_highlife : Grid → option Grid :=
  update_with (λ n, negb (py_in n [2; 3]%nat)) (λ count, py_in count [3; 6]%nat).

Definition update_grid_day_night : Grid → option Grid :=
  update_with (λ n, negb (py_in n [3; 4; 6; 7; 8]%nat))
              (λ count, py_in count [3; 6; 7; 8]%nat).

(** The first loop of [update_grid_seeds] has no [remove] statement at all
    (only the comment "All cells die, ..."): no live cell is ever tested. *)
Definition update_grid_seeds : Grid → option Grid :=
  update_with (λ _, false) (λ count, bool_decide (count = 2%nat)).

(** ** The random source and [generate_random_grid]

    [random.random()] hands out the next binary64 of a stream.  The state
    of the source is the stream and the number of draws made so far; a
    computation that draws is a state transformer. *)

Record Source := mkSource { draws : nat → spec_float; drawn : nat }.

Definition Rand (A : Type) : Type := Source → A * Source.

#[global] Instance rand_ret : MRet Rand := λ A (a : A) src, (a, src).

#[global] Instance rand_bind : MBind Rand :=
  λ A B (k : A → Rand B) (m : Rand A) src, let '(a, src') := m src in k a src'.

Definition random_random : Rand spec_float :=
  λ src, (draws src (drawn src), mkSource (draws src) (S (drawn src))).

(** [for x in xs: body] where the body draws. *)
Fixpoint for_range {A S : Type} (body : S → A → Rand S) (s : S) (xs : list A)
  : Rand S :=
  match xs with
  | [] => mret s
  | x :: xs' => s' ← body s x; for_range body s' xs'
  end.

Definition generate_random_grid (dim : Dim) (live_cell_probability : spec_float)
  : Rand Grid :=
  cells ← for_range (λ cells x,
             for_range (λ cells y,
                r ← random_random;
                mret (if SFltb r live_cell_probability
                      then set_add cells (x, y) else cells))
               cells (range (height dim)))
           (∅ : gset Pos) (range (width dim));
  mret (mkGrid dim cells).

(** The binary64 values of the literals [0] and [1]. *)
Definition float_zero : spec_float := S754_zero false.
Definition float_one : spec_float := S754_finite false 4503599627370496 (-52).

(** ** Specification vocabulary *)

(** Chebyshev distance; the Moore neighbourhood of [p] is the positions at
    distance exactly 1. *)
Definition chebyshev (p q : Pos) : Z :=
  Z.max (Z.abs (p.1 - q.1)) (Z.abs (p.2 - q.2)).

Definition moore (p q : Pos) : Prop := chebyshev p q = 1.

#[global] Instance moore_dec p q : Decision (moore p q).
Proof. unfold moore. apply _. Defined.

(** Number of live cells in the Moore neighbourhood of [p]. *)
Definition moore_count (grid : Grid) (p : Pos) : nat :=
  size (filter (λ c, moore c p) (cells grid)).

(** The same number as the code obtains it, from [get_neighbours]. *)
Definition live_count (grid : Grid) (p : Pos) : nat :=
  size (alive (get_neighbours grid p.1 p.2)).

(** An update is local when every live cell it returns was live or is a
    Moore neighbour of a cell that was. *)
Definition local_update (update : Grid → option Grid) : Prop :=
  ∀ grid, ∃ new_grid,
    update grid = Some new_grid
    ∧ ∀ p, p ∈ cells new_grid → p ∈ cells grid ∨ ∃ c, c ∈ cells grid ∧ moore p c.

(** ** Intermediate results of an update *)

(** A tally read the way a [defaultdict(int)] reads it. *)
Definition tally_at (undead : gmap Pos nat) (q : Pos) : nat := default 0%nat (undead !! q).

(** The dictionary after the first loop has visited the cells [l]. *)
Definition tally_all (grid : Grid) (undead : gmap Pos nat) (l : list Pos) : gmap Pos nat :=
  foldl (λ u c, tally_dead u (dead (get_neighbours grid c.1 c.2))) undead l.

(** What an update with the tests [dies] and [born] returns. *)
Definition next_cells (dies born : nat → bool) (grid : Grid) : gset Pos :=
  foldl (birth_body born)
    (cells grid
     ∖ list_to_set (filter (λ c, dies (live_count grid c)) (elements (cells grid))))
    (map_to_list (tally_all grid ∅ (elements (cells grid)))).

(** ** The loop of [main]

    [main] names the four update functions that [update_functions] may
    hold, picks one per round with [random.choice] and replaces the grid
    by its image: [grid = update_function(grid)]. *)

Definition variants : list (Grid → option Grid) :=
  [update_grid; update_grid_highlife; update_grid_day_night; update_grid_seeds].

(** The grid after one round per element of [choices], the functions
    that were picked, in order. *)
Definition run_ticks (choices : list (Grid → option Grid)) (grid : Grid)
  : option Grid :=
  for_each (λ grid update_function, update_function grid) grid choices.

(** The binary64 value of the literal [0.1]. *)
Definition float_tenth : spec_float := S754_finite false 7205759403792794 (-56).

(** The grid that [main] holds after [rounds] rounds of its loop with
    [update_functions = [update_grid]]: seeded on the 200x200 [dim] with
    probability 0.1, then updated once per round. *)
Definition main_grid (rounds : nat) (src : Source) : option Grid :=
  run_ticks (replicate rounds update_grid)
            (generate_random_grid (mkDim 200 200) float_tenth src).1.

(** ** Symmetries of the plane *)

(** The grid with every live cell moved by [φ]. *)
Definition map_cells (φ : Pos → Pos) (grid : Grid) : Grid :=
  mkGrid (dim grid) (set_map φ (cells grid)).

Definition translate (dx dy : Z) (p : Pos) : Pos := (p.1 + dx, p.2 + dy).

Definition transpose (p : Pos) : Pos := (p.2, p.1).

Definition mirror (p : Pos) : Pos := (- p.1, p.2).

(** An update commutes with [φ] when moving the cells before or after it
    gives the same grid. *)
Definition equivariant (φ : Pos → Pos) (update : Grid → option Grid) : Prop :=
  ∀ grid, update (map_cells φ grid) = map_cells φ <$> update grid.

(** [φ] and [ψ] are inverse of each other and keep Moore adjacency. *)
Definition isometry (φ ψ : Pos → Pos) : Prop :=
  (∀ p, ψ (φ p) = p) ∧ (∀ p, φ (ψ p) = p)
  ∧ ∀ p q, moore (φ p) (φ q) ↔ moore p q.

(** The 3x3 block around a position. *)
Definition block (c : Pos) : gset Pos := {[ c ]} ∪ possible_neighbours c.1 c.2.

(** ** The neighbour classifier *)

Section neighbours.
Implicit Types (grid : Grid) (x y : Z) (p q : Pos).

Lemma moore_sym p q : moore p q ↔ moore q p.
Proof. unfold moore, chebyshev. lia. Qed.

Lemma moore_irrefl p : ¬ moore p p.
Proof. unfold moore, chebyshev. lia. Qed.

Lemma elem_of_possible_neighbours x y q :
  q ∈ possible_neighbours x y ↔ moore q (x, y).
Proof.
  destruct q as [qx qy].
  unfold possible_neighbours, moore, chebyshev, offsets.
  rewrite elem_of_list_to_set, list_elem_of_fmap. simpl. split.
  - intros [[dx dy] [Heq Hin]]. simpl in Heq.
    injection Heq as -> ->.
    repeat (apply elem_of_cons in Hin as [Hin | Hin];
            [injection Hin as -> ->; lia |]).
    by apply elem_of_nil in Hin.
  - intros Hd. exists (qx - x, qy - y). simpl. split; [f_equal; lia |].
    assert (Hx : qx - x = -1 ∨ qx - x = 0 ∨ qx - x = 1) by lia.
    assert (Hy : qy - y = -1 ∨ qy - y = 0 ∨ qy - y = 1) by lia.
    destruct Hx as [-> | [Hx | ->]], Hy as [-> | [Hy | ->]];
      try rewrite Hx; try rewrite Hy;
      try (repeat (first [apply list_elem_of_here | apply list_elem_of_further]); fail).
    lia.
Qed.

Lemma offsets_NoDup : NoDup offsets.
Proof. apply (bool_decide_unpack _). by vm_compute. Qed.

Lemma size_possible_neighbours x y : size (possible_neighbours x y) = 8%nat.
Proof.
  unfold possible_neighbours. rewrite size_list_to_set.
  - by rewrite length_fmap.
  - apply NoDup_fmap_2; [| apply offsets_NoDup].
    intros [a b] [c d] Heq. simpl in Heq. injection Heq as Ha Hb.
    f_equal; lia.
Qed.

Lemma alive_get_neighbours grid x y :
  alive (get_neighbours grid x y)
  = filter (λ pos, pos ∈ cells grid) (possible_neighbours x y).
Proof.
  unfold get_neighbours. simpl. apply set_eq. intros [a b].
  rewrite elem_of_map. split.
  - intros [[a' b'] [Heq Hin]]. simpl in Heq. by rewrite Heq.
  - intros Hin. by exists (a, b).
Qed.

Lemma elem_of_alive grid x y q :
  q ∈ alive (get_neighbours grid x y) ↔ moore q (x, y) ∧ q ∈ cells grid.
Proof.
  rewrite alive_get_neighbours, elem_of_filter, elem_of_possible_neighbours.
  tauto.
Qed.

Lemma live_count_moore_count grid p : live_count grid p = moore_count grid p.
Proof.
  unfold live_count, moore_count. f_equal. apply set_eq. intros c.
  rewrite elem_of_alive, elem_of_filter. by destruct p.
Qed.

Lemma elem_of_dead grid x y q :
  q ∈ dead (get_neighbours grid x y) ↔ moore q (x, y) ∧ q ∉ cells grid.
Proof.
  unfold get_neighbours at 1. simpl.
  rewrite elem_of_difference. fold (get_neighbours grid x y).
  change (set_map _ _) with (alive (get_neighbours grid x y)).
  rewrite elem_of_alive, elem_of_possible_neighbours. tauto.
Qed.

Lemma size_alive_dead grid x y :
  (size (alive (get_neighbours grid x y))
   + size (dead (get_neighbours grid x y)) = 8)%nat.
Proof.
  rewrite <- (size_possible_neighbours x y), <- size_union.
  - f_equal. apply set_eq. intros q.
    rewrite elem_of_union, elem_of_alive, elem_of_dead,
      elem_of_possible_neighbours.
    destruct (decide (q ∈ cells grid)); tauto.
  - intros q. rewrite elem_of_alive, elem_of_dead. tauto.
Qed.
End neighbours.

(** ** The tally dictionary *)

Section tally.
Implicit Types (grid : Grid) (undead : gmap Pos nat) (p q c : Pos).

Lemma tally_at_incr undead pos q :
  tally_at (incr undead pos) q
  = (tally_at undead q + if decide (pos = q) then 1 else 0)%nat.
Proof.
  unfold tally_at, incr. destruct (decide (pos = q)) as [-> | Hne].
  - rewrite lookup_insert_eq. simpl. lia.
  - rewrite lookup_insert_ne by done. lia.
Qed.

Lemma tally_at_foldl_incr (l : list Pos) undead q :
  tally_at (foldl incr undead l) q
  = (tally_at undead q + length (filter (λ pos, pos = q) l))%nat.
Proof.
  revert undead. induction l as [| pos l IH]; intros undead; simpl.
  - lia.
  - rewrite IH, tally_at_incr, filter_cons.
    destruct (decide (pos = q)); simpl; lia.
Qed.

Lemma length_filter_eq_NoDup (l : list Pos) q :
  NoDup l →
  length (filter (λ pos, pos = q) l) = if decide (q ∈ l) then 1%nat else 0%nat.
Proof.
  induction 1 as [| pos l Hnotin Hnd IH].
  - by rewrite decide_False by apply not_elem_of_nil.
  - rewrite filter_cons. destruct (decide (pos = q)) as [-> | Hne]; simpl.
    + rewrite IH. rewrite decide_False by done.
      rewrite decide_True by apply list_elem_of_here. done.
    + rewrite IH. destruct (decide (q ∈ l)) as [Hin | Hout].
      * rewrite decide_True by by apply list_elem_of_further. done.
      * rewrite decide_False; [done |].
        rewrite elem_of_cons. intros [-> | ?]; congruence.
Qed.

(** One inner loop adds one to every member of [dead_neighbours]. *)
Lemma tally_at_tally_dead undead (dead_neighbours : gset Pos) q :
  tally_at (tally_dead undead dead_neighbours) q
  = (tally_at undead q + if decide (q ∈ dead_neighbours) then 1 else 0)%nat.
Proof.
  unfold tally_dead.
  rewrite tally_at_foldl_incr, length_filter_eq_NoDup by apply NoDup_elements.
  f_equal. destruct (decide (q ∈ dead_neighbours)) as [Hin | Hout].
  - rewrite decide_True; [done |]. by apply elem_of_elements.
  - rewrite decide_False; [done |]. by rewrite elem_of_elements.
Qed.


Lemma tally_at_tally_all grid (l : list Pos) undead q :
  tally_at (tally_all grid undead l) q
  = (tally_at undead q
     + length (filter (λ c, q ∈ dead (get_neighbours grid c.1 c.2)) l))%nat.
Proof.
  unfold tally_all. revert undead.
  induction l as [| c l IH]; intros undead; cbn [foldl].
  - rewrite filter_nil. simpl. lia.
  - rewrite IH, tally_at_tally_dead.
    destruct (decide (q ∈ dead (get_neighbours grid c.1 c.2))) as [Hin | Hout].
    + rewrite filter_cons_True by done. cbn [length]. lia.
    + rewrite filter_cons_False by done. lia.
Qed.

Lemma filter_False (l : list Pos) : filter (λ _, False) l = [].
Proof.
  induction l as [| c l IH]; [done |].
  rewrite filter_cons_False; [exact IH | tauto].
Qed.

Lemma size_set_filter (P : Pos → Prop) `{!∀ x, Decision (P x)} (X : gset Pos) :
  size (filter P X) = length (filter P (elements X)).
Proof.
  unfold filter at 1, set_filter. rewrite size_list_to_set; [done |].
  apply NoDup_filter, NoDup_elements.
Qed.

(** After a whole first loop a live position has tally 0 and a dead one
    has its number of live Moore neighbours. *)
Lemma tally_at_full grid q :
  tally_at (tally_all grid ∅ (elements (cells grid))) q
  = if decide (q ∈ cells grid) then 0%nat else live_count grid q.
Proof.
  rewrite tally_at_tally_all. unfold tally_at at 1.
  rewrite lookup_empty. change (default 0%nat None) with 0%nat.
  rewrite Nat.add_0_l.
  destruct (decide (q ∈ cells grid)) as [Hin | Hout].
  - rewrite (list_filter_iff _ (λ _, False)), filter_False; [done |].
    intros c. cbv beta. rewrite elem_of_dead. tauto.
  - rewrite (list_filter_iff _ (λ c, moore q c)).
    + rewrite <- size_set_filter. unfold live_count. f_equal.
      rewrite alive_get_neighbours. apply set_eq. intros c.
      rewrite !elem_of_filter, elem_of_possible_neighbours.
      destruct q as [qx qy]. simpl. rewrite (moore_sym c). tauto.
    + intros c. cbv beta. rewrite elem_of_dead. destruct c. simpl. tauto.
Qed.
End tally.

(** ** The two loops of an update *)

Section update.
Implicit Types (dies born : nat → bool).
Implicit Types (grid : Grid) (undead : gmap Pos nat) (p q c : Pos).

(** The first loop never raises: it visits each live cell once, and the
    copy still holds every cell that is yet to be visited. *)
Lemma for_each_survival dies grid (l : list Pos) :
  NoDup l →
  ∀ (new_cells : gset Pos) undead,
    (∀ c, c ∈ l → c ∈ new_cells) →
    for_each (survival_body dies grid) (new_cells, undead) l
    = Some (new_cells ∖ list_to_set (filter (λ c, dies (live_count grid c)) l),
            tally_all grid undead l).
Proof.
  induction 1 as [| c l Hnotin Hnd IH]; intros new_cells undead Hsub.
  - cbn [for_each]. rewrite filter_nil. do 2 f_equal.
    apply set_eq. intros q. rewrite elem_of_difference, elem_of_list_to_set.
    split; [intros Hq | intros [Hq _]; exact Hq].
    split; [done | apply not_elem_of_nil].
  - cbn [for_each]. destruct c as [x y]. unfold survival_body at 1.
    change (size (alive (get_neighbours grid x y)))
      with (live_count grid (x, y)).
    destruct (dies (live_count grid (x, y))) eqn:Hdies.
    + unfold set_remove. rewrite decide_True by apply Hsub, list_elem_of_here.
      cbv beta iota. rewrite IH.
      * rewrite filter_cons_True by by rewrite Hdies.
        do 2 f_equal. apply set_eq. intros q.
        rewrite !elem_of_difference, elem_of_list_to_set, elem_of_singleton,
          elem_of_list_to_set, elem_of_cons.
        tauto.
      * intros c Hc. apply elem_of_difference. split.
        -- apply Hsub. by apply list_elem_of_further.
        -- rewrite elem_of_singleton. intros ->. done.
    + cbv beta iota. rewrite IH.
      * rewrite filter_cons_False; [done |].
        rewrite Hdies. exact (λ Hfalse, Hfalse).
      * intros c Hc. apply Hsub. by apply list_elem_of_further.
Qed.

Lemma elem_of_foldl_birth born (items : list (Pos * nat)) (new_cells : gset Pos) q :
  q ∈ foldl (birth_body born) new_cells items
  ↔ q ∈ new_cells ∨ ∃ count, (q, count) ∈ items ∧ born count = true.
Proof.
  revert new_cells. induction items as [| [pos count] items IH];
    intros new_cells; cbn [foldl].
  - split; [tauto |]. intros [? | (count & Hin & _)]; [done |].
    by apply elem_of_nil in Hin.
  - rewrite IH. unfold birth_body, set_add. destruct pos as [a b]. simpl.
    split.
    + intros [Hq | (n & Hin & Hn)].
      * destruct (born count) eqn:Hb; [| tauto].
        apply elem_of_union in Hq as [Hq | Hq]; [tauto |].
        apply elem_of_singleton in Hq as ->. right. exists count.
        split; [apply list_elem_of_here | done].
      * right. exists n. split; [by apply list_elem_of_further | done].
    + intros [Hq | (n & Hin & Hn)]; [left |].
      * destruct (born count); [apply elem_of_union |]; tauto.
      * apply elem_of_cons in Hin as [Heq | Hin].
        -- injection Heq as -> ->. left. rewrite Hn.
           apply elem_of_union. right. by apply elem_of_singleton.
        -- right. eauto.
Qed.


Lemma update_with_total dies born grid :
  update_with dies born grid = Some (mkGrid (dim grid) (next_cells dies born grid)).
Proof.
  unfold update_with. rewrite for_each_survival.
  - done.
  - apply NoDup_elements.
  - intros c. by rewrite elem_of_elements.
Qed.

(** Membership in the next generation, for a birth test that rejects a
    tally of 0 (every test of the module does). *)
Lemma elem_of_next_cells dies born grid q :
  born 0%nat = false →
  q ∈ next_cells dies born grid
  ↔ ((q ∈ cells grid ∧ dies (live_count grid q) = false)
     ∨ ((q ∉ cells grid) ∧ born (live_count grid q) = true)).
Proof.
  intros Hborn0. unfold next_cells.
  rewrite elem_of_foldl_birth, elem_of_difference, elem_of_list_to_set,
    list_elem_of_filter, elem_of_elements.
  assert (Htally := tally_at_full grid q). unfold tally_at in Htally.
  setoid_rewrite elem_of_map_to_list.
  split.
  - intros [[Hin Hkeep] | (count & Hlook & Hb)].
    + left. split; [done |]. destruct (dies _); [| done].
      exfalso. apply Hkeep. done.
    + rewrite Hlook in Htally. simpl in Htally.
      destruct (decide (q ∈ cells grid)); [congruence |].
      right. split; [done |]. congruence.
  - intros [[Hin Hkeep] | [Hout Hb]].
    + left. split; [done |]. rewrite Hkeep. intros [[] _].
    + right. rewrite decide_False in Htally by done.
      destruct (tally_all grid ∅ (elements (cells grid)) !! q) as [count |].
      * simpl in Htally. exists count. split; [done | congruence].
      * simpl in Htally. congruence.
Qed.
End update.

(** ** Order facts on binary64 comparisons *)

Section floats.
Implicit Types a b c : spec_float.

Ltac cmp_cases :=
  repeat match goal with
    | |- context [Z.compare ?e1 ?e2] =>
        destruct (Z.compare_spec e1 e2); try subst
    | H : context [Z.compare ?e1 ?e2] |- _ =>
        destruct (Z.compare_spec e1 e2); try subst
    | |- context [Pos.compare ?m1 ?m2] =>
        destruct (Pos.compare_spec m1 m2); try subst
    | H : context [Pos.compare ?m1 ?m2] |- _ =>
        destruct (Pos.compare_spec m1 m2); try subst
    end.

Ltac float_cases a b c :=
  destruct a as [[] | [] | | [] ? ?], b as [[] | [] | | [] ? ?],
    c as [[] | [] | | [] ? ?];
  cbn [SFltb SFleb SFcompare CompOpp];
  try (intros; congruence);
  change (Pos.compare_cont Eq) with Pos.compare;
  intros Hab Hbc; cmp_cases;
  try (cbn [CompOpp] in *; congruence); try lia.

Lemma SFltb_leb_trans a b c :
  SFltb a b = true → SFleb b c = true → SFltb a c = true.
Proof. float_cases a b c. Qed.

Lemma SFleb_ltb_trans a b c :
  SFleb a b = true → SFltb b c = true → SFltb a c = true.
Proof. float_cases a b c. Qed.

Lemma SFltb_irrefl a : SFltb a a = false.
Proof.
  destruct a as [[] | [] | | [] m e]; cbn [SFltb SFcompare]; try done;
    rewrite Z.compare_refl; change (Pos.compare_cont Eq) with Pos.compare;
    by rewrite Pos.compare_refl.
Qed.

(** A draw of [[0, 1)] is never below a probability [p <= 0] ... *)
Lemma draw_not_below r p :
  SFleb float_zero r = true → SFleb p float_zero = true → SFltb r p = false.
Proof.
  intros H0r Hp0. destruct (SFltb r p) eqn:Hrp; [| done].
  pose proof (SFltb_leb_trans _ _ _ Hrp Hp0) as Hr0.
  pose proof (SFleb_ltb_trans _ _ _ H0r Hr0) as H00.
  by rewrite SFltb_irrefl in H00.
Qed.

(** ... and always below a probability [p >= 1]. *)
Lemma draw_below r p :
  SFltb r float_one = true → SFleb float_one p = true → SFltb r p = true.
Proof. apply SFltb_leb_trans. Qed.
End floats.

(** ** The seeding loops when every draw compares the same way *)

Section random_grid.
Variables (p : spec_float) (below : bool) (f : nat → spec_float).
Hypothesis draws_below : ∀ n, SFltb (f n) p = below.

Lemma inner_loop_const (x : Z) (ys : list Z) :
  ∀ (cells : gset Pos) (k : nat),
    for_range (λ cells y,
                 r ← random_random;
                 mret (if SFltb r p then set_add cells (x, y) else cells))
              cells ys (mkSource f k)
    = (if below then cells ∪ list_to_set ((λ y, (x, y)) <$> ys) else cells,
       mkSource f (k + length ys)).
Proof.
  induction ys as [| y ys IH]; intros cells k.
  - cbn. rewrite Nat.add_0_r. destruct below; [| done].
    f_equal. by rewrite (right_id_L ∅ (∪)).
  - cbn [for_range]. unfold mbind at 1, rand_bind at 1.
    unfold mbind at 1, rand_bind at 1, random_random at 1. cbn [draws drawn].
    unfold mret at 1, rand_ret at 1. rewrite IH, draws_below.
    cbn [length fmap list_fmap]. replace (S k + length ys)%nat with (k + S (length ys))%nat by lia.
    destruct below; [| done]. f_equal. unfold set_add.
    cbn [list_to_set]. by rewrite (assoc_L (∪)).
Qed.

Lemma outer_loop_const (ys xs : list Z) :
  ∀ (cells : gset Pos) (k : nat),
    for_range (λ cells x,
                 for_range (λ cells y,
                              r ← random_random;
                              mret (if SFltb r p then set_add cells (x, y)
                                    else cells))
                           cells ys)
              cells xs (mkSource f k)
    = (if below
       then cells ∪ list_to_set (x ← xs; (λ y, (x, y)) <$> ys)
       else cells,
       mkSource f (k + length xs * length ys)).
Proof.
  induction xs as [| x xs IH]; intros cells k.
  - cbn. rewrite Nat.add_0_r. destruct below; [| done].
    f_equal. by rewrite (right_id_L ∅ (∪)).
  - cbn [for_range]. unfold mbind at 1, rand_bind at 1.
    rewrite inner_loop_const, IH. f_equal.
    + destruct below; [| done]. cbn [mbind list_bind].
      rewrite list_to_set_app_L. by rewrite (assoc_L (∪)).
    + f_equal. cbn [length]. lia.
Qed.

Lemma generate_random_grid_const (d : Dim) (k : nat) :
  (generate_random_grid d p (mkSource f k)).1
  = mkGrid d (if below
              then list_to_set (x ← range (width d);
                                (λ y, (x, y)) <$> range (height d))
              else ∅).
Proof.
  unfold generate_random_grid, mbind at 1, rand_bind at 1.
  rewrite outer_loop_const. cbn. destruct below; [| done].
  by rewrite (left_id_L ∅ (∪)).
Qed.
End random_grid.

Lemma elem_of_grid_positions (w h x y : Z) :
  (x, y) ∈ (x ← range w; (λ y, (x, y)) <$> range h)
  ↔ (0 ≤ x < w ∧ 0 ≤ y < h).
Proof.
  unfold range. rewrite list_elem_of_bind. split.
  - intros (x' & Hin & Hx'). apply list_elem_of_fmap in Hin as (y' & Heq & Hy').
    injection Heq as -> ->. apply elem_of_seqZ in Hx', Hy'. lia.
  - intros [Hx Hy]. exists x. split.
    + apply list_elem_of_fmap. exists y. split; [done |]. apply elem_of_seqZ. lia.
    + apply elem_of_seqZ. lia.
Qed.

(** ** Consequences for the four variants *)

Lemma py_in_true (n : nat) (l : list nat) : py_in n l = true ↔ n ∈ l.
Proof. unfold py_in. apply bool_decide_eq_true. Qed.

Lemma not_py_in_false (n : nat) (l : list nat) : negb (py_in n l) = false ↔ n ∈ l.
Proof. rewrite negb_false_iff. apply py_in_true. Qed.

(** A position of the next generation is an old live cell or touches one. *)
Lemma next_cells_local (dies born : nat → bool) (grid : Grid) (q : Pos) :
  born 0%nat = false →
  q ∈ next_cells dies born grid →
  q ∈ cells grid ∨ ∃ c, c ∈ cells grid ∧ moore q c.
Proof.
  intros Hborn0 Hq. apply elem_of_next_cells in Hq as [[Hin _] | [Hout Hb]];
    [tauto | | done].
  right. destruct (decide (live_count grid q = 0%nat)) as [Hz | Hnz].
  - rewrite Hz in Hb. congruence.
  - unfold live_count in Hnz. apply size_non_empty_iff in Hnz.
    apply set_choose in Hnz as [c Hc].
    apply elem_of_alive in Hc as [Hm Hc]. exists c. split; [done |].
    apply moore_sym. by destruct q.
Qed.

(** Without a [remove], the copy of the live cells is only ever extended. *)
Lemma next_cells_no_removal (born : nat → bool) (grid : Grid) :
  cells grid ⊆ next_cells (λ _, false) born grid.
Proof.
  intros q Hq. unfold next_cells.
  rewrite elem_of_foldl_birth, elem_of_difference, elem_of_list_to_set,
    list_elem_of_filter.
  left. split; [done |]. by intros [[] _].
Qed.

(** * The claims *)

(** C1: [update_grid] returns a grid whose live cells are exactly (a) the
    input live cells with 2 or 3 live Moore neighbours and (b) the dead
    positions with exactly 3 live Moore neighbours. *)
Theorem update_grid_conway (grid : Grid) :
  ∃ new_grid, update_grid grid = Some new_grid ∧
    ∀ p, p ∈ cells new_grid
         ↔ ((p ∈ cells grid ∧ moore_count grid p ∈ [2; 3]%nat)
            ∨ ((p ∉ cells grid) ∧ moore_count grid p = 3%nat)).
Proof.
  unfold update_grid. rewrite update_with_total.
  eexists. split; [reflexivity |]. intros p. cbn [cells].
  rewrite elem_of_next_cells by done.
  by rewrite not_py_in_false, bool_decide_eq_true, live_count_moore_count.
Qed.

(** C2 (the code departs from it): under [update_grid_seeds] a live cell
    is still live in the next generation; here the lone cell (0, 0). *)
Theorem update_grid_seeds_keeps_lone_cell (d : Dim) :
  update_grid_seeds (mkGrid d {[ (0, 0) ]}) = Some (mkGrid d {[ (0, 0) ]}).
Proof. vm_compute. reflexivity. Qed.

(** C3: [get_neighbours] splits the Moore neighbourhood of (x, y) into two
    disjoint sets whose union is that neighbourhood, 8 positions in all,
    [alive] being the neighbours that are members of [grid.cells]. *)
Theorem get_neighbours_partition (grid : Grid) (x y : Z) :
  alive (get_neighbours grid x y) ## dead (get_neighbours grid x y)
  ∧ (∀ q, q ∈ alive (get_neighbours grid x y) ∪ dead (get_neighbours grid x y)
          ↔ moore q (x, y))
  ∧ size (alive (get_neighbours grid x y) ∪ dead (get_neighbours grid x y)) = 8%nat
  ∧ (size (alive (get_neighbours grid x y))
     + size (dead (get_neighbours grid x y)) = 8)%nat
  ∧ (∀ q, q ∈ alive (get_neighbours grid x y)
          ↔ moore q (x, y) ∧ q ∈ cells grid).
Proof.
  assert (Hdisj : alive (get_neighbours grid x y) ## dead (get_neighbours grid x y)).
  { intros q. rewrite elem_of_alive, elem_of_dead. tauto. }
  split; [done |]. split; [| split; [| split]].
  - intros q. rewrite elem_of_union, elem_of_alive, elem_of_dead.
    destruct (decide (q ∈ cells grid)); tauto.
  - rewrite size_union by done. apply size_alive_dead.
  - apply size_alive_dead.
  - intros q. apply elem_of_alive.
Qed.

(** C4: each of the four variants maps a grid without live cells to a grid
    without live cells. *)
Theorem empty_grid_fixed_point (d : Dim) :
  update_grid (mkGrid d ∅) = Some (mkGrid d ∅)
  ∧ update_grid_highlife (mkGrid d ∅) = Some (mkGrid d ∅)
  ∧ update_grid_day_night (mkGrid d ∅) = Some (mkGrid d ∅)
  ∧ update_grid_seeds (mkGrid d ∅) = Some (mkGrid d ∅).
Proof. repeat split; vm_compute; reflexivity. Qed.

(** C5: a dead position with exactly 6 live Moore neighbours is live after
    [update_grid_highlife] and not live after [update_grid]. *)
Theorem highlife_birth_on_six (grid : Grid) (p : Pos) :
  p ∉ cells grid →
  moore_count grid p = 6%nat →
  ∃ high conway,
    update_grid_highlife grid = Some high ∧ update_grid grid = Some conway
    ∧ p ∈ cells high ∧ p ∉ cells conway.
Proof.
  intros Hdead Hsix.
  unfold update_grid_highlife, update_grid. rewrite !update_with_total.
  do 2 eexists. split; [reflexivity |]. split; [reflexivity |].
  cbn [cells]. rewrite !elem_of_next_cells by done.
  rewrite !live_count_moore_count, Hsix. split.
  - right. split; [done |]. by vm_compute.
  - intros [[Hin _] | [_ Hb]]; [done |]. by vm_compute in Hb.
Qed.

Lemma highlife_birth_on_six_witness :
  ∃ high conway,
    update_grid_highlife
      (mkGrid (mkDim 3 3)
              {[ (-1, -1); (0, -1); (1, -1); (-1, 0); (1, 0); (-1, 1) ]})
    = Some high
    ∧ update_grid
        (mkGrid (mkDim 3 3)
                {[ (-1, -1); (0, -1); (1, -1); (-1, 0); (1, 0); (-1, 1) ]})
      = Some conway
    ∧ (0, 0) ∈ cells high ∧ (0, 0) ∉ cells conway.
Proof.
  apply (highlife_birth_on_six
           (mkGrid (mkDim 3 3)
                   {[ (-1, -1); (0, -1); (1, -1); (-1, 0); (1, 0); (-1, 1) ]})
           (0, 0)).
  - apply (bool_decide_unpack _). vm_compute. exact I.
  - vm_compute. reflexivity.
Defined.

(** C6: [update_grid_day_night] returns a grid whose live cells are exactly
    (a) the input live cells with 3, 4, 6, 7 or 8 live Moore neighbours and
    (b) the dead positions with 3, 6, 7 or 8 live Moore neighbours. *)
Theorem update_grid_day_night_rule (grid : Grid) :
  ∃ new_grid, update_grid_day_night grid = Some new_grid ∧
    ∀ p, p ∈ cells new_grid
         ↔ ((p ∈ cells grid ∧ moore_count grid p ∈ [3; 4; 6; 7; 8]%nat)
            ∨ ((p ∉ cells grid) ∧ moore_count grid p ∈ [3; 6; 7; 8]%nat)).
Proof.
  unfold update_grid_day_night. rewrite update_with_total.
  eexists. split; [reflexivity |]. intros p. cbn [cells].
  rewrite elem_of_next_cells by done.
  by rewrite not_py_in_false, py_in_true, live_count_moore_count.
Qed.

(** C7: the blinker has period 2 under [update_grid]: the vertical line
    (1,0), (1,1), (1,2) becomes the horizontal line (0,1), (1,1), (2,1),
    and a second update gives the vertical line back. *)
Theorem blinker_period_two (d : Dim) :
  update_grid (mkGrid d {[ (1, 0); (1, 1); (1, 2) ]})
  = Some (mkGrid d {[ (0, 1); (1, 1); (2, 1) ]})
  ∧ update_grid (mkGrid d {[ (1, 0); (1, 1); (1, 2) ]}) ≫= update_grid
    = Some (mkGrid d {[ (1, 0); (1, 1); (1, 2) ]}).
Proof. split; vm_compute; reflexivity. Qed.

(** C8: each of the four variants returns a grid with the [dim] of its
    input. *)
Theorem update_preserves_dim (grid : Grid) :
  dim <$> update_grid grid = Some (dim grid)
  ∧ dim <$> update_grid_highlife grid = Some (dim grid)
  ∧ dim <$> update_grid_day_night grid = Some (dim grid)
  ∧ dim <$> update_grid_seeds grid = Some (dim grid).
Proof.
  unfold update_grid, update_grid_highlife, update_grid_day_night,
    update_grid_seeds.
  by rewrite !update_with_total.
Qed.

(** C9: with every draw in [[0, 1)], [generate_random_grid] returns the
    grid without live cells when [p <= 0] and the grid whose live cells are
    all (x, y) with [0 <= x < width] and [0 <= y < height] when [p >= 1]. *)
Theorem generate_random_grid_degenerate (d : Dim) (p : spec_float) (src : Source) :
  0 ≤ width d →
  0 ≤ height d →
  (∀ n, SFleb float_zero (draws src n) = true
        ∧ SFltb (draws src n) float_one = true) →
  (SFleb p float_zero = true →
   (generate_random_grid d p src).1 = mkGrid d ∅)
  ∧ (SFleb float_one p = true →
     dim (generate_random_grid d p src).1 = d
     ∧ ∀ x y, (x, y) ∈ cells (generate_random_grid d p src).1
              ↔ (0 ≤ x < width d ∧ 0 ≤ y < height d)).
Proof.
  intros _ _ Hdraws. destruct src as [f k]. cbn [draws] in Hdraws. split.
  - intros Hp. apply (generate_random_grid_const p false f).
    intros n. apply draw_not_below; [apply Hdraws | done].
  - intros Hp. rewrite (generate_random_grid_const p true f).
    + cbn [dim cells]. split; [done |]. intros x y.
      rewrite elem_of_list_to_set. apply elem_of_grid_positions.
    + intros n. apply draw_below; [apply Hdraws | done].
Qed.

Lemma generate_random_grid_degenerate_witness :
  (generate_random_grid (mkDim 2 3) float_zero (mkSource (λ _, float_zero) 0)).1
  = mkGrid (mkDim 2 3) ∅
  ∧ ∀ x y,
      (x, y) ∈ cells (generate_random_grid (mkDim 2 3) float_one
                        (mkSource (λ _, float_zero) 0)).1
      ↔ (0 ≤ x < 2 ∧ 0 ≤ y < 3).
Proof.
  split.
  - apply (generate_random_grid_degenerate (mkDim 2 3) float_zero
             (mkSource (λ _, float_zero) 0)).
    + cbn. lia.
    + cbn. lia.
    + intros n. split; reflexivity.
    + reflexivity.
  - apply (generate_random_grid_degenerate (mkDim 2 3) float_one
             (mkSource (λ _, float_zero) 0)).
    + cbn. lia.
    + cbn. lia.
    + intros n. split; reflexivity.
    + reflexivity.
Defined.

(** C10: each of the four variants is local: a live cell of the result was
    live in the input or is at Chebyshev distance 1 of an input live cell. *)
Theorem update_locality :
  local_update update_grid
  ∧ local_update update_grid_highlife
  ∧ local_update update_grid_day_night
  ∧ local_update update_grid_seeds.
Proof.
  unfold update_grid, update_grid_highlife, update_grid_day_night,
    update_grid_seeds.
  repeat split; intros grid; rewrite update_with_total;
    (eexists; split; [reflexivity |]);
    intros p; cbn [cells]; by apply next_cells_local.
Qed.

(** Under [update_grid_seeds] every live cell of any grid stays live. *)
Lemma update_grid_seeds_retains (grid : Grid) :
  ∃ new_grid,
    update_grid_seeds grid = Some new_grid ∧ cells grid ⊆ cells new_grid.
Proof.
  unfold update_grid_seeds. rewrite update_with_total.
  eexists. split; [reflexivity |]. apply next_cells_no_removal.
Qed.

(** The 2x2 block is a still life of [update_grid]. *)
Example block_still_life (d : Dim) :
  update_grid (mkGrid d {[ (0, 0); (1, 0); (0, 1); (1, 1) ]})
  = Some (mkGrid d {[ (0, 0); (1, 0); (0, 1); (1, 1) ]}).
Proof. vm_compute. reflexivity. Qed.

(** * Further properties of the update functions *)

Section rules.
Implicit Types (grid : Grid) (p q c : Pos).

Lemma moore_count_le_8 grid p : (moore_count grid p ≤ 8)%nat.
Proof.
  rewrite <- live_count_moore_count. unfold live_count.
  pose proof (size_alive_dead grid p.1 p.2). lia.
Qed.

(** X1: [update_grid_highlife] returns a grid whose live cells are exactly
    the input live cells with 2 or 3 live Moore neighbours and the dead
    positions with 3 or 6. *)
Theorem update_grid_highlife_rule grid :
  ∃ new_grid, update_grid_highlife grid = Some new_grid ∧
    ∀ p, p ∈ cells new_grid
         ↔ ((p ∈ cells grid ∧ moore_count grid p ∈ [2; 3]%nat)
            ∨ ((p ∉ cells grid) ∧ moore_count grid p ∈ [3; 6]%nat)).
Proof.
  unfold update_grid_highlife. rewrite update_with_total.
  eexists. split; [reflexivity |]. intros p. cbn [cells].
  rewrite elem_of_next_cells by done.
  by rewrite not_py_in_false, py_in_true, live_count_moore_count.
Qed.

(** X2: [update_grid_seeds] returns a grid whose live cells are exactly
    all the input live cells and the dead positions with exactly 2 live
    Moore neighbours. *)
Theorem update_grid_seeds_rule grid :
  ∃ new_grid, update_grid_seeds grid = Some new_grid ∧
    ∀ p, p ∈ cells new_grid
         ↔ (p ∈ cells grid ∨ ((p ∉ cells grid) ∧ moore_count grid p = 2%nat)).
Proof.
  unfold update_grid_seeds. rewrite update_with_total.
  eexists. split; [reflexivity |]. intros p. cbn [cells].
  rewrite elem_of_next_cells by done.
  rewrite bool_decide_eq_true, live_count_moore_count. tauto.
Qed.

(** X3: the next generation of HighLife is the next generation of Conway
    together with the dead positions that have exactly 6 live Moore
    neighbours. *)
Theorem highlife_extends_conway grid :
  ∃ conway high,
    update_grid grid = Some conway ∧ update_grid_highlife grid = Some high
    ∧ ∀ p, p ∈ cells high
           ↔ (p ∈ cells conway ∨ ((p ∉ cells grid) ∧ moore_count grid p = 6%nat)).
Proof.
  unfold update_grid_highlife, update_grid. rewrite !update_with_total.
  do 2 eexists. split; [reflexivity |]. split; [reflexivity |].
  intros p. cbn [cells]. rewrite !elem_of_next_cells by done.
  rewrite !not_py_in_false, py_in_true, bool_decide_eq_true,
    !live_count_moore_count.
  rewrite !elem_of_cons, !elem_of_nil. split.
  - intros [Hlive | [Hdead [H3 | [H6 | []]]]]; tauto.
  - intros [[Hlive | [Hdead H3]] | [Hdead H6]]; tauto.
Qed.
End rules.

(** ** Sparse populations, the tally and the size of a generation *)

Section population.
Implicit Types (grid : Grid) (undead : gmap Pos nat) (p q c : Pos).

Lemma moore_count_le_size grid p : (moore_count grid p ≤ size (cells grid))%nat.
Proof.
  unfold moore_count. apply subseteq_size. intros c.
  rewrite elem_of_filter. tauto.
Qed.

Lemma moore_count_lt_size grid p :
  p ∈ cells grid → (moore_count grid p < size (cells grid))%nat.
Proof.
  intros Hp. unfold moore_count.
  assert (Hsub : filter (λ c, moore c p) (cells grid) ⊆ cells grid ∖ {[ p ]}).
  { intros c. rewrite elem_of_filter, elem_of_difference, elem_of_singleton.
    intros [Hm Hc]. split; [done |]. intros ->. by apply moore_irrefl in Hm. }
  apply subseteq_size in Hsub. rewrite size_difference in Hsub.
  - rewrite size_singleton in Hsub.
    assert (size (cells grid) ≠ 0%nat); [| lia].
    apply size_non_empty_iff. intros Hempty. by apply Hempty in Hp.
  - intros c. rewrite elem_of_singleton. by intros ->.
Qed.

Lemma next_cells_sparse (dies born : nat → bool) grid :
  (size (cells grid) ≤ 2)%nat →
  (∀ n, (n ≤ 1)%nat → dies n = true) →
  (∀ n, (n ≤ 2)%nat → born n = false) →
  next_cells dies born grid = ∅.
Proof.
  intros Hsize Hdies Hborn. apply set_eq. intros p.
  rewrite elem_of_next_cells by (apply Hborn; lia).
  rewrite !live_count_moore_count. split; [| by intros ?%not_elem_of_empty].
  intros [[Hp Hkeep] | [Hp Hb]]; exfalso.
  - pose proof (moore_count_lt_size grid p Hp).
    rewrite Hdies in Hkeep by lia. done.
  - pose proof (moore_count_le_size grid p).
    rewrite Hborn in Hb by lia. done.
Qed.

(** X4: a grid with at most two live cells has no live cell after
    [update_grid], [update_grid_highlife] or [update_grid_day_night]. *)
Theorem sparse_grid_dies_out grid :
  (size (cells grid) ≤ 2)%nat →
  update_grid grid = Some (mkGrid (dim grid) ∅)
  ∧ update_grid_highlife grid = Some (mkGrid (dim grid) ∅)
  ∧ update_grid_day_night grid = Some (mkGrid (dim grid) ∅).
Proof.
  intros Hsize.
  unfold update_grid, update_grid_highlife, update_grid_day_night.
  rewrite !update_with_total.
  repeat split; do 2 f_equal; apply next_cells_sparse; try done;
    intros n Hn;
    repeat (destruct n as [| n]; [by vm_compute |]); lia.
Qed.

Lemma sparse_grid_dies_out_witness :
  update_grid (mkGrid (mkDim 5 5) {[ (0, 0); (1, 1) ]})
  = Some (mkGrid (mkDim 5 5) ∅)
  ∧ update_grid_highlife (mkGrid (mkDim 5 5) {[ (0, 0); (1, 1) ]})
    = Some (mkGrid (mkDim 5 5) ∅)
  ∧ update_grid_day_night (mkGrid (mkDim 5 5) {[ (0, 0); (1, 1) ]})
    = Some (mkGrid (mkDim 5 5) ∅).
Proof.
  apply (sparse_grid_dies_out (mkGrid (mkDim 5 5) {[ (0, 0); (1, 1) ]})).
  vm_compute. lia.
Defined.

(** X5: a live cell [c] lists the dead position [q] among its dead
    neighbours exactly when [q] lists [c] among its alive neighbours. *)
Theorem dead_alive_symmetry grid c q :
  (c ∈ cells grid ∧ q ∈ dead (get_neighbours grid c.1 c.2))
  ↔ (c ∈ alive (get_neighbours grid q.1 q.2) ∧ q ∉ cells grid).
Proof.
  rewrite elem_of_dead, elem_of_alive. destruct c as [cx cy], q as [qx qy].
  cbn [fst snd]. rewrite (moore_sym (qx, qy)). tauto.
Qed.

Lemma incr_nonzero undead pos :
  map_Forall (λ _ n, n ≠ 0%nat) undead →
  map_Forall (λ _ n, n ≠ 0%nat) (incr undead pos).
Proof. intros Hall. apply map_Forall_insert_2; [lia | done]. Qed.

Lemma tally_dead_nonzero undead (dead_neighbours : gset Pos) :
  map_Forall (λ _ n, n ≠ 0%nat) undead →
  map_Forall (λ _ n, n ≠ 0%nat) (tally_dead undead dead_neighbours).
Proof.
  unfold tally_dead. generalize (elements dead_neighbours). intros l.
  revert undead. induction l as [| pos l IH]; intros undead Hall; [done |].
  cbn [foldl]. by apply IH, incr_nonzero.
Qed.

Lemma tally_all_nonzero grid (l : list Pos) undead :
  map_Forall (λ _ n, n ≠ 0%nat) undead →
  map_Forall (λ _ n, n ≠ 0%nat) (tally_all grid undead l).
Proof.
  unfold tally_all. revert undead.
  induction l as [| c l IH]; intros undead Hall; [done |].
  cbn [foldl]. by apply IH, tally_dead_nonzero.
Qed.

(** X6: when the first loop of an update ends, [new_cells] holds the live
    cells that pass the survival test, and [undead] has one key per dead
    position with a live Moore neighbour, mapped to the number of its
    live Moore neighbours. *)
Theorem first_loop_result (dies : nat → bool) grid :
  ∃ new_cells undead,
    for_each (survival_body dies grid) (cells grid, ∅) (elements (cells grid))
    = Some (new_cells, undead)
    ∧ (∀ q, q ∈ new_cells
            ↔ (q ∈ cells grid ∧ dies (moore_count grid q) = false))
    ∧ (∀ q n, undead !! q = Some n
              ↔ (n = moore_count grid q ∧ n ≠ 0%nat ∧ q ∉ cells grid)).
Proof.
  rewrite for_each_survival;
    [| apply NoDup_elements | intros c; by rewrite elem_of_elements].
  do 2 eexists. split; [reflexivity |]. split.
  - intros q. rewrite elem_of_difference, elem_of_list_to_set,
      list_elem_of_filter, elem_of_elements, live_count_moore_count.
    destruct (dies (moore_count grid q)); split.
    + intros [Hq Hno]. exfalso. apply Hno. by split.
    + by intros [_ ?].
    + by intros [Hq _].
    + intros [Hq _]. split; [done |]. by intros [[] _].
  - intros q n.
    pose proof (tally_at_full grid q) as Htally. unfold tally_at in Htally.
    pose proof (tally_all_nonzero grid (elements (cells grid)) ∅
                  (map_Forall_empty _)) as Hnz.
    rewrite live_count_moore_count in Htally. split.
    + intros Hlook. specialize (Hnz q n Hlook). cbv beta in Hnz.
      rewrite Hlook in Htally. cbn in Htally.
      destruct (decide (q ∈ cells grid)); [congruence |]. done.
    + intros (-> & Hn & Hq). rewrite decide_False in Htally by done.
      destruct (tally_all grid ∅ (elements (cells grid)) !! q) as [m |];
        cbn in Htally; congruence.
Qed.
End population.

(** ** Symmetry *)

Section symmetry.
Implicit Types (grid : Grid) (p q c : Pos) (φ ψ : Pos → Pos).

Lemma elem_of_map_cells φ ψ grid q :
  isometry φ ψ → q ∈ cells (map_cells φ grid) ↔ ψ q ∈ cells grid.
Proof.
  intros (Hψφ & Hφψ & _). unfold map_cells. cbn [cells].
  rewrite elem_of_map. split.
  - intros (c & -> & Hc). by rewrite Hψφ.
  - intros Hq. exists (ψ q). by rewrite Hφψ.
Qed.

Lemma size_set_map_inj φ ψ (X : gset Pos) :
  (∀ p, ψ (φ p) = p) → size (set_map φ X : gset Pos) = size X.
Proof.
  intros Hψφ. unfold set_map. rewrite size_list_to_set.
  - rewrite length_fmap. done.
  - apply NoDup_fmap_2; [| apply NoDup_elements].
    intros a b Hab. by rewrite <- (Hψφ a), <- (Hψφ b), Hab.
Qed.

Lemma moore_count_map_cells φ ψ grid q :
  isometry φ ψ → moore_count (map_cells φ grid) q = moore_count grid (ψ q).
Proof.
  intros Hiso. pose proof Hiso as (Hψφ & Hφψ & Hmoore). unfold moore_count.
  rewrite <- (size_set_map_inj φ ψ (filter _ (cells grid))) by done.
  f_equal. apply set_eq. intros c.
  rewrite elem_of_filter, (elem_of_map_cells φ ψ) by done.
  rewrite elem_of_map. split.
  - intros [Hm Hc]. exists (ψ c). rewrite Hφψ. split; [done |].
    apply elem_of_filter. split; [| done].
    apply Hmoore. by rewrite !Hφψ.
  - intros (c' & -> & [Hm Hc]%elem_of_filter). rewrite Hψφ. split; [| done].
    apply Hmoore in Hm. by rewrite Hφψ in Hm.
Qed.

Lemma next_cells_map_cells φ ψ (dies born : nat → bool) grid :
  isometry φ ψ →
  born 0%nat = false →
  next_cells dies born (map_cells φ grid) = set_map φ (next_cells dies born grid).
Proof.
  intros Hiso Hborn. pose proof Hiso as (Hψφ & Hφψ & _).
  apply set_eq. intros q.
  assert (Hmap : q ∈ (set_map φ (next_cells dies born grid) : gset Pos)
                 ↔ ψ q ∈ next_cells dies born grid).
  { rewrite elem_of_map. split.
    - intros (c & -> & Hc). by rewrite Hψφ.
    - intros Hq. exists (ψ q). by rewrite Hφψ. }
  rewrite Hmap, !elem_of_next_cells by done.
  rewrite !live_count_moore_count, (moore_count_map_cells φ ψ) by done.
  by rewrite (elem_of_map_cells φ ψ) by done.
Qed.

Lemma update_with_equivariant φ ψ (dies born : nat → bool) :
  isometry φ ψ → born 0%nat = false → equivariant φ (update_with dies born).
Proof.
  intros Hiso Hborn grid. rewrite !update_with_total. cbn.
  by rewrite (next_cells_map_cells φ ψ).
Qed.

Lemma variants_equivariant φ ψ : isometry φ ψ → Forall (equivariant φ) variants.
Proof.
  intros Hiso. unfold variants.
  repeat apply Forall_cons_2; [.. | apply Forall_nil_2];
    by apply (update_with_equivariant φ ψ).
Qed.

Lemma translate_isometry dx dy : isometry (translate dx dy) (translate (- dx) (- dy)).
Proof.
  unfold isometry, translate, moore, chebyshev. cbn [fst snd].
  repeat split; intros; try (destruct p; cbn [fst snd]; f_equal; lia); lia.
Qed.

Lemma transpose_isometry : isometry transpose transpose.
Proof.
  unfold isometry, transpose, moore, chebyshev. cbn [fst snd].
  repeat split; intros; try (by destruct p); lia.
Qed.

Lemma mirror_isometry : isometry mirror mirror.
Proof.
  unfold isometry, mirror, moore, chebyshev. cbn [fst snd].
  repeat split; intros; try (destruct p; cbn [fst snd]; f_equal; lia); lia.
Qed.

(** X7: each of the four update functions commutes with every translation
    of the plane: updating the cells moved by (dx, dy) gives the updated
    cells moved by (dx, dy). *)
Theorem update_translation_equivariant (dx dy : Z) :
  Forall (equivariant (translate dx dy)) variants.
Proof. apply (variants_equivariant _ _ (translate_isometry dx dy)). Qed.

(** X8: each of the four update functions commutes with the exchange of
    the two axes and with the reflection of the x axis. *)
Theorem update_reflection_equivariant :
  Forall (equivariant transpose) variants ∧ Forall (equivariant mirror) variants.
Proof.
  split.
  - apply (variants_equivariant _ _ transpose_isometry).
  - apply (variants_equivariant _ _ mirror_isometry).
Qed.

(** X9: the live cells that an update function returns do not depend on
    the [dim] of its input. *)
Theorem update_ignores_dim (d1 d2 : Dim) (live : gset Pos) :
  Forall (λ update : Grid → option Grid,
            cells <$> update (mkGrid d1 live) = cells <$> update (mkGrid d2 live))
         variants.
Proof.
  unfold variants, update_grid, update_grid_highlife, update_grid_day_night,
    update_grid_seeds.
  repeat apply Forall_cons_2; [.. | apply Forall_nil_2];
    by rewrite !update_with_total.
Qed.
End symmetry.

(** ** Size of a generation and runs of several rounds *)

Section runs.
Implicit Types (grid : Grid) (p q c : Pos) (update : Grid → option Grid).

Lemma size_block c : (size (block c) ≤ 9)%nat.
Proof.
  unfold block. rewrite size_union_alt, size_singleton.
  pose proof (subseteq_size (possible_neighbours c.1 c.2 ∖ {[ c ]})
                (possible_neighbours c.1 c.2)) as Hle.
  rewrite size_possible_neighbours in Hle.
  assert (possible_neighbours c.1 c.2 ∖ {[c]} ⊆ possible_neighbours c.1 c.2)
    as Hsub by (intros q; rewrite elem_of_difference; tauto).
  specialize (Hle Hsub). lia.
Qed.

Lemma size_union_list_le (Xs : list (gset Pos)) (n : nat) :
  Forall (λ X, (size X ≤ n)%nat) Xs → (size (⋃ Xs) ≤ n * length Xs)%nat.
Proof.
  induction 1 as [| X Xs HX HXs IH]; cbn [union_list foldr length].
  - rewrite size_empty. lia.
  - rewrite size_union_alt.
    pose proof (subseteq_size (⋃ Xs ∖ X) (⋃ Xs)) as Hle.
    assert (⋃ Xs ∖ X ⊆ ⋃ Xs) as Hsub
      by (intros q; rewrite elem_of_difference; tauto).
    specialize (Hle Hsub). lia.
Qed.

Lemma next_cells_blocks (dies born : nat → bool) grid :
  born 0%nat = false →
  next_cells dies born grid ⊆ ⋃ (block <$> elements (cells grid)).
Proof.
  intros Hborn q Hq. apply elem_of_union_list.
  apply next_cells_local in Hq as [Hq | (c & Hc & Hm)]; [| | done].
  - exists (block q). split.
    + apply list_elem_of_fmap. exists q. by rewrite elem_of_elements.
    + unfold block. apply elem_of_union. left. by apply elem_of_singleton.
  - exists (block c). split.
    + apply list_elem_of_fmap. exists c. by rewrite elem_of_elements.
    + unfold block. apply elem_of_union. right.
      apply elem_of_possible_neighbours. by destruct c.
Qed.

Lemma update_with_size (dies born : nat → bool) grid :
  born 0%nat = false →
  ∃ new_grid, update_with dies born grid = Some new_grid
              ∧ (size (cells new_grid) ≤ 9 * size (cells grid))%nat.
Proof.
  intros Hborn. rewrite update_with_total. eexists. split; [reflexivity |].
  cbn [cells].
  etrans; [apply subseteq_size, (next_cells_blocks _ _ _ Hborn) |].
  etrans; [apply (size_union_list_le _ 9) |].
  - apply Forall_fmap, Forall_forall. intros c _. apply size_block.
  - rewrite length_fmap. done.
Qed.

(** X10: a generation returned by one of the four update functions has at
    most nine times as many live cells as its input. *)
Theorem update_size_bound :
  Forall (λ update, ∀ grid, ∃ new_grid,
            update grid = Some new_grid
            ∧ (size (cells new_grid) ≤ 9 * size (cells grid))%nat)
         variants.
Proof.
  unfold variants.
  repeat apply Forall_cons_2; [.. | apply Forall_nil_2];
    intros grid; by apply update_with_size.
Qed.

Lemma chebyshev_refl p : chebyshev p p = 0.
Proof. unfold chebyshev. lia. Qed.

Lemma chebyshev_triangle p q c : chebyshev p c ≤ chebyshev p q + chebyshev q c.
Proof. unfold chebyshev. lia. Qed.

(** One round of any variant: no exception, same [dim], and every live
    cell within distance 1 of an old one. *)
Lemma variant_step update grid :
  update ∈ variants →
  ∃ new_grid, update grid = Some new_grid ∧ dim new_grid = dim grid
              ∧ ∀ p, p ∈ cells new_grid → ∃ c, c ∈ cells grid ∧ chebyshev p c ≤ 1.
Proof.
  intros Hin.
  assert (Hloc : local_update update).
  { pose proof update_with_total as Htot.
    unfold variants in Hin.
    repeat (apply elem_of_cons in Hin as [-> | Hin]);
      [.. | by apply elem_of_nil in Hin];
      intros g; eexists; (split; [apply Htot |]);
      intros p; cbn [cells]; by apply next_cells_local. }
  assert (Hdim : ∀ g, dim <$> update g = Some (dim g)).
  { unfold variants in Hin.
    repeat (apply elem_of_cons in Hin as [-> | Hin]);
      [.. | by apply elem_of_nil in Hin];
      intros g; unfold update_grid, update_grid_highlife,
        update_grid_day_night, update_grid_seeds;
      by rewrite update_with_total. }
  destruct (Hloc grid) as (new_grid & Hupd & Hlocal).
  exists new_grid. split; [done |]. split.
  - specialize (Hdim grid). rewrite Hupd in Hdim. cbn in Hdim. congruence.
  - intros p Hp. destruct (Hlocal p Hp) as [Hold | (c & Hc & Hm)].
    + exists p. split; [done |]. rewrite chebyshev_refl. lia.
    + exists c. split; [done |]. unfold moore in Hm. lia.
Qed.

(** Any number of rounds: no exception, same [dim], and every live cell
    within distance n of a cell of the first grid. *)
Lemma run_ticks_spec (choices : list (Grid → option Grid)) grid :
  Forall (λ update, update ∈ variants) choices →
  ∃ last, run_ticks choices grid = Some last ∧ dim last = dim grid
          ∧ ∀ p, p ∈ cells last →
                 ∃ c, c ∈ cells grid ∧ chebyshev p c ≤ Z.of_nat (length choices).
Proof.
  intros Hall. revert grid.
  induction Hall as [| update choices Hin Hall IH]; intros grid.
  - exists grid. split; [done |]. split; [done |]. intros p Hp.
    exists p. split; [done |]. rewrite chebyshev_refl. cbn. lia.
  - destruct (variant_step update grid Hin) as (g1 & Hupd & Hdim & Hstep).
    destruct (IH g1) as (last & Hrun & Hlast & Hcone).
    exists last. unfold run_ticks in *. cbn [for_each]. rewrite Hupd.
    split; [done |]. split; [congruence |]. intros p Hp.
    destruct (Hcone p Hp) as (q & Hq & Hpq).
    destruct (Hstep q Hq) as (c & Hc & Hqc).
    exists c. split; [done |].
    pose proof (chebyshev_triangle p q c). cbn [length]. lia.
Qed.



(** X12: after n rounds, each with any of the four update functions, every
    live cell is within Chebyshev distance n of a cell that was live at
    the start. *)
Theorem run_ticks_light_cone (choices : list (Grid → option Grid)) grid last :
  Forall (λ update, update ∈ variants) choices →
  run_ticks choices grid = Some last →
  ∀ p, p ∈ cells last →
       ∃ c, c ∈ cells grid ∧ chebyshev p c ≤ Z.of_nat (length choices).
Proof.
  intros Hall Hrun.
  destruct (run_ticks_spec choices grid Hall) as (last' & Hrun' & _ & Hcone).
  rewrite Hrun in Hrun'. by injection Hrun' as <-.
Qed.

Lemma run_ticks_light_cone_witness :
  ∃ c, c ∈ cells (mkGrid (mkDim 3 3) {[ (1, 0); (1, 1); (1, 2) ]})
       ∧ chebyshev (0, 1) c ≤ Z.of_nat (length [update_grid]).
Proof.
  apply (run_ticks_light_cone [update_grid]
           (mkGrid (mkDim 3 3) {[ (1, 0); (1, 1); (1, 2) ]})
           (mkGrid (mkDim 3 3) {[ (0, 1); (1, 1); (2, 1) ]})).
  - apply Forall_cons_2; [apply list_elem_of_here | apply Forall_nil_2].
  - vm_compute. reflexivity.
  - apply (bool_decide_unpack _). vm_compute. exact I.
Defined.

(** X13: a grid without live cells stays without live cells through any
    number of rounds of the four update functions. *)
Theorem run_ticks_empty (choices : list (Grid → option Grid)) (d : Dim) :
  Forall (λ update, update ∈ variants) choices →
  run_ticks choices (mkGrid d ∅) = Some (mkGrid d ∅).
Proof.
  intros Hall.
  destruct (run_ticks_spec choices (mkGrid d ∅) Hall)
    as (last & Hrun & Hdim & Hcone).
  rewrite Hrun. f_equal. destruct last as [d' live]. cbn in Hdim. subst d'.
  f_equal. apply set_eq. intros p. split; [| by intros ?%not_elem_of_empty].
  intros Hp. by destruct (Hcone p Hp) as (c & Hc & _).
Qed.

Lemma run_ticks_empty_witness :
  run_ticks [update_grid_day_night; update_grid_seeds] (mkGrid (mkDim 2 2) ∅)
  = Some (mkGrid (mkDim 2 2) ∅).
Proof.
  apply (run_ticks_empty [update_grid_day_night; update_grid_seeds] (mkDim 2 2)).
  unfold variants.
  repeat (apply Forall_cons_2;
          [repeat (first [apply list_elem_of_here | apply list_elem_of_further]) |]).
  apply Forall_nil_2.
Defined.
End runs.

(** * Further properties of [generate_random_grid] *)

Section seeding.
Variables (p : spec_float) (f : nat → spec_float).

Lemma inner_loop_spec (x : Z) (ys : list Z) :
  ∀ (cells : gset Pos) (k : nat),
    ∃ cells' : gset Pos,
      for_range (λ cells y,
                   r ← random_random;
                   mret (if SFltb r p then set_add cells (x, y) else cells))
                cells ys (mkSource f k)
      = (cells', mkSource f (k + length ys))
      ∧ ∀ q, q ∈ cells'
             ↔ (q ∈ cells
                ∨ ∃ j y, ys !! j = Some y ∧ q = (x, y)
                         ∧ SFltb (f (k + j)%nat) p = true).
Proof.
  induction ys as [| y ys IH]; intros cells k.
  - exists cells. cbn. rewrite Nat.add_0_r. split; [done |].
    intros q. split; [tauto |]. intros [Hq | (j & y & Hj & _)]; [done |].
    by rewrite lookup_nil in Hj.
  - cbn [for_range]. unfold mbind at 1, rand_bind at 1.
    unfold mbind at 1, rand_bind at 1, random_random at 1. cbn [draws drawn].
    unfold mret at 1, rand_ret at 1.
    destruct (IH (if SFltb (f k) p then set_add cells (x, y) else cells) (S k))
      as (cells' & Hrun & Hmem).
    exists cells'. rewrite Hrun. split.
    { do 2 f_equal. cbn [length]. lia. }
    intros q. rewrite Hmem. unfold set_add. split.
    + intros [Hq | (j & y' & Hj & -> & Hdraw)].
      * destruct (SFltb (f k) p) eqn:Hk; [| tauto].
        apply elem_of_union in Hq as [Hq | Hq]; [tauto |].
        apply elem_of_singleton in Hq as ->. right. exists 0%nat, y.
        rewrite Nat.add_0_r. done.
      * right. exists (S j), y'. split; [done |]. split; [done |].
        by replace (k + S j)%nat with (S k + j)%nat by lia.
    + intros [Hq | (j & y' & Hj & -> & Hdraw)].
      * left. destruct (SFltb (f k) p); [| done].
        apply elem_of_union. tauto.
      * destruct j as [| j].
        -- cbn in Hj. injection Hj as ->. rewrite Nat.add_0_r in Hdraw.
           left. rewrite Hdraw. apply elem_of_union. right.
           by apply elem_of_singleton.
        -- right. exists j, y'. split; [done |]. split; [done |].
           by replace (S k + j)%nat with (k + S j)%nat by lia.
Qed.

Lemma outer_loop_spec (ys xs : list Z) :
  ∀ (cells : gset Pos) (k : nat),
    ∃ cells' : gset Pos,
      for_range (λ cells x,
                   for_range (λ cells y,
                                r ← random_random;
                                mret (if SFltb r p then set_add cells (x, y)
                                      else cells))
                             cells ys)
                cells xs (mkSource f k)
      = (cells', mkSource f (k + length xs * length ys))
      ∧ ∀ q, q ∈ cells'
             ↔ (q ∈ cells
                ∨ ∃ i j x y, xs !! i = Some x ∧ ys !! j = Some y ∧ q = (x, y)
                             ∧ SFltb (f (k + i * length ys + j)%nat) p = true).
Proof.
  induction xs as [| x xs IH]; intros cells k.
  - exists cells. cbn. rewrite Nat.add_0_r. split; [done |].
    intros q. split; [tauto |]. intros [Hq | (i & j & x & y & Hi & _)]; [done |].
    by rewrite lookup_nil in Hi.
  - cbn [for_range]. unfold mbind at 1, rand_bind at 1.
    destruct (inner_loop_spec x ys cells k) as (cells1 & Hrun1 & Hmem1).
    rewrite Hrun1.
    destruct (IH cells1 (k + length ys)%nat) as (cells' & Hrun & Hmem).
    exists cells'. rewrite Hrun. split.
    { do 2 f_equal. cbn [length]. lia. }
    intros q. rewrite Hmem, Hmem1. split.
    + intros [[Hq | (j & y & Hj & -> & Hdraw)]
             | (i & j & x' & y & Hi & Hj & -> & Hdraw)].
      * tauto.
      * right. exists 0%nat, j, x, y. repeat (split; [done |]).
        by replace (k + 0 * length ys + j)%nat with (k + j)%nat by lia.
      * right. exists (S i), j, x', y. repeat (split; [done |]).
        by replace (k + S i * length ys + j)%nat
          with (k + length ys + i * length ys + j)%nat by lia.
    + intros [Hq | (i & j & x' & y & Hi & Hj & -> & Hdraw)]; [tauto |].
      destruct i as [| i].
      * cbn in Hi. injection Hi as ->. left. right. exists j, y.
        repeat (split; [done |]).
        by replace (k + j)%nat with (k + 0 * length ys + j)%nat by lia.
      * right. exists i, j, x', y. repeat (split; [done |]).
        by replace (k + length ys + i * length ys + j)%nat
          with (k + S i * length ys + j)%nat by lia.
Qed.
End seeding.

Lemma grid_index (h x y : Z) (i j : nat) :
  x = 0 + Z.of_nat i → y = 0 + Z.of_nat j → Z.of_nat j < h →
  Z.to_nat (x * h + y) = (i * Z.to_nat h + j)%nat.
Proof.
  intros -> -> Hj. rewrite !Z.add_0_l.
  rewrite Z2Nat.inj_add by nia. rewrite Z2Nat.inj_mul by lia.
  by rewrite !Nat2Z.id.
Qed.

(** The result of [generate_random_grid], for any probability and source. *)
Lemma generate_random_grid_run (d : Dim) (p : spec_float) (f : nat → spec_float)
    (k : nat) :
  ∃ live : gset Pos,
    generate_random_grid d p (mkSource f k)
    = (mkGrid d live,
       mkSource f (k + Z.to_nat (width d) * Z.to_nat (height d)))
    ∧ ∀ x y, (x, y) ∈ live
             ↔ (0 ≤ x < width d ∧ 0 ≤ y < height d
                ∧ SFltb (f (k + Z.to_nat (x * height d + y))%nat) p = true).
Proof.
  unfold generate_random_grid, mbind at 1, rand_bind at 1.
  destruct (outer_loop_spec p f (range (height d)) (range (width d)) ∅ k)
    as (live & Hrun & Hmem).
  exists live. rewrite Hrun. unfold range in *. rewrite !length_seqZ in *.
  split; [done |]. intros x y. rewrite Hmem. split.
  - intros [Hq | (i & j & x' & y' & Hi & Hj & Heq & Hdraw)];
      [by apply not_elem_of_empty in Hq |].
    injection Heq as -> ->.
    apply lookup_seqZ in Hi as [Hx Hi], Hj as [Hy Hj].
    rewrite (grid_index (height d) x' y' i j) by done.
    rewrite <- Nat.add_assoc in Hdraw. split; [lia |]. split; [lia | done].
  - intros (Hx & Hy & Hdraw). right.
    exists (Z.to_nat x), (Z.to_nat y), x, y.
    split; [apply lookup_seqZ; lia |]. split; [apply lookup_seqZ; lia |].
    split; [done |].
    rewrite (grid_index (height d) x y (Z.to_nat x) (Z.to_nat y)) in Hdraw
      by lia.
    by rewrite <- Nat.add_assoc.
Qed.

(** X14: [generate_random_grid] returns a grid with the given [dim] in
    which (x, y) is live exactly when it lies inside [dim] and the draw
    number [x * height + y] (counted from the state of the source) is
    below the probability. *)
Theorem generate_random_grid_cells (d : Dim) (p : spec_float) (src : Source) :
  dim (generate_random_grid d p src).1 = d
  ∧ ∀ x y, (x, y) ∈ cells (generate_random_grid d p src).1
           ↔ (0 ≤ x < width d ∧ 0 ≤ y < height d
              ∧ SFltb (draws src (drawn src + Z.to_nat (x * height d + y))%nat) p
                = true).
Proof.
  destruct src as [f k].
  destruct (generate_random_grid_run d p f k) as (live & -> & Hmem).
  split; [done |]. exact Hmem.
Qed.

(** X15: [generate_random_grid] makes one draw per position of [dim],
    [width * height] in all (none when a side is not positive), and leaves
    the rest of the stream as it was. *)
Theorem generate_random_grid_draws (d : Dim) (p : spec_float) (src : Source) :
  (generate_random_grid d p src).2
  = mkSource (draws src)
             (drawn src + Z.to_nat (width d) * Z.to_nat (height d)).
Proof.
  destruct src as [f k].
  by destruct (generate_random_grid_run d p f k) as (live & -> & _).
Qed.



(** X17: a NaN probability gives the grid without live cells, whatever the
    draws are. *)
Theorem generate_random_grid_nan (d : Dim) (src : Source) :
  (generate_random_grid d S754_nan src).1 = mkGrid d ∅.
Proof.
  destruct src as [f k].
  apply (generate_random_grid_const S754_nan false f).
  intros n. by destruct (f n).
Qed.

(** X18: when the width or the height is zero or negative,
    [generate_random_grid] returns the grid without live cells and does
    not touch the source. *)
Theorem generate_random_grid_no_area (d : Dim) (p : spec_float) (src : Source) :
  width d ≤ 0 ∨ height d ≤ 0 →
  generate_random_grid d p src = (mkGrid d ∅, src).
Proof.
  intros Hside. destruct src as [f k].
  destruct (generate_random_grid_run d p f k) as (live & -> & Hmem).
  f_equal.
  - f_equal. apply set_eq. intros [x y]. rewrite Hmem.
    split; [lia | by intros ?%not_elem_of_empty].
  - f_equal. destruct Hside as [Hw | Hh].
    + rewrite (Z2Nat.nonpos (width d)) by done. lia.
    + rewrite (Z2Nat.nonpos (height d)) by done. lia.
Qed.

Lemma generate_random_grid_no_area_witness :
  generate_random_grid (mkDim (-3) 5) float_one (mkSource (λ _, float_zero) 7)
  = (mkGrid (mkDim (-3) 5) ∅, mkSource (λ _, float_zero) 7).
Proof.
  apply (generate_random_grid_no_area (mkDim (-3) 5) float_one
           (mkSource (λ _, float_zero) 7)).
  left. cbn. lia.
Defined.

(** * The grids of [main] *)

(** X19: after any number n of rounds [main] holds a grid of [dim]
    200x200 whose live cells all lie in the 200x200 window widened by n
    on every side. *)
Theorem main_grid_window (rounds : nat) (src : Source) :
  ∃ grid, main_grid rounds src = Some grid ∧ dim grid = mkDim 200 200
          ∧ ∀ x y, (x, y) ∈ cells grid
                   → (- Z.of_nat rounds ≤ x < 200 + Z.of_nat rounds
                      ∧ - Z.of_nat rounds ≤ y < 200 + Z.of_nat rounds).
Proof.
  unfold main_grid. destruct src as [f k].
  destruct (generate_random_grid_run (mkDim 200 200) float_tenth f k)
    as (live & -> & Hmem). cbn [fst].
  destruct (run_ticks_spec (replicate rounds update_grid)
              (mkGrid (mkDim 200 200) live)) as (last & Hrun & Hdim & Hcone).
  { apply Forall_replicate. apply list_elem_of_here. }
  exists last. split; [done |]. split; [done |]. intros x y Hxy.
  destruct (Hcone _ Hxy) as ([cx cy] & Hc & Hdist).
  apply Hmem in Hc as (Hx & Hy & _). cbn [width height] in Hx, Hy.
  rewrite length_replicate in Hdist. unfold chebyshev in Hdist.
  cbn [fst snd] in Hdist. lia.
Qed.
